(** * W.A.T.E.R. runtime: version registry, connect-import wrapper, managed dialer

    A shallow embedding of the Go sources

    - package [water]: the two process-wide version registries [mapOBRCV] and
      [mapIBRCV] with their lookup and registration functions;
    - package [v0] (capability shim): [WrapConnectFunc] and the stubbed
      [unimplementedWASIConnectFunc];
    - package [v0] (internal): [ManagedDialer];

    followed by a model of the runtime connection, which the repository only
    exercises through its tests and examples.

    Conventions.  A Go [int32] is a [Z]; none of the embedded functions does
    arithmetic on it, so no wrap-around has to be written out.  A Go [error]
    is its message, and the nil error is [None].  A Go interface or pointer
    value that may be nil is an [option].  Code with side effects is written
    in state-passing style over the state it can touch. *)

From Stdlib Require Import Strings.Byte.
From stdpp Require Import gmap strings pretty list.

Local Open Scope Z_scope.
Local Open Scope string_scope.

(** ** Go-level conventions *)

(** The message of a Go [error] value. *)
Definition error : Type := string.

(** A call either returns to its caller or aborts the process with [panic]. *)
Inductive outcome (A : Type) : Type :=
| Returned (a : A)
| Panicked (msg : string).
Arguments Returned {A} a.
Arguments Panicked {A} msg.

(** [fmt.Sprintf] with the verb [%d]. *)
Definition fmt_d (n : Z) : string := pretty n.

(** ** Package [water]: the version registry *)

Section registry.

(** The engine-side types are opaque to the registry. [World] is the state
    a constructor can act on: engine instances, sockets and the like.  A
    registered constructor is a function value that can be called; the
    registries themselves are unexported and a constructor does not reach
    them. *)
Context {runtimeCore RuntimeConn netConn World : Type}.

(** A registered outbound constructor: from a core to a connection and an
    error. *)
Local Abbreviation OutboundCtor :=
  (runtimeCore → World → (option RuntimeConn * option error) * World).

(** A registered inbound constructor: from a core and the accepted raw
    connection to a connection and an error. *)
Local Abbreviation InboundCtor :=
  (runtimeCore → netConn → World → (option RuntimeConn * option error) * World).

(** The package-level variables together with the rest of the process. *)
Record Process : Type := mkProcess {
  mapOBRCV : gmap Z OutboundCtor;
  mapIBRCV : gmap Z InboundCtor;
  world : World;
}.

Definition set_world (w : World) (p : Process) : Process :=
  {| mapOBRCV := mapOBRCV p; mapIBRCV := mapIBRCV p; world := w |}.

Definition unknown_version (version : Z) : error :=
  "water: unknown version: " +:+ fmt_d version.

Definition already_registered (version : Z) : string :=
  "water: version " +:+ fmt_d version +:+ " already registered".

Definition OutboundRuntimeConnWithVersion (core : runtimeCore) (version : Z)
    (p : Process) : (option RuntimeConn * option error) * Process :=
  match mapOBRCV p !! version with
  | None => ((None, Some (unknown_version version)), p)
  | Some f => let '(r, w) := f core (world p) in (r, set_world w p)
  end.

Definition RegisterOutboundRuntimeConnWithVersion (version : Z)
    (f : OutboundCtor) (p : Process) : outcome Process :=
  match mapOBRCV p !! version with
  | Some _ => Panicked (already_registered version)
  | None =>
      Returned {| mapOBRCV := <[version := f]> (mapOBRCV p);
                  mapIBRCV := mapIBRCV p;
                  world := world p |}
  end.

Definition InboundRuntimeConnWithVersion (core : runtimeCore) (version : Z)
    (ibc : netConn) (p : Process) : (option RuntimeConn * option error) * Process :=
  match mapIBRCV p !! version with
  | None => ((None, Some (unknown_version version)), p)
  | Some f => let '(r, w) := f core ibc (world p) in (r, set_world w p)
  end.

Definition RegisterInboundRuntimeConnWithVersion (version : Z)
    (f : InboundCtor) (p : Process) : outcome Process :=
  match mapIBRCV p !! version with
  | Some _ => Panicked (already_registered version)
  | None =>
      Returned {| mapOBRCV := mapOBRCV p;
                  mapIBRCV := <[version := f]> (mapIBRCV p);
                  world := world p |}
  end.

(** A call of one of the four exported functions. *)
Inductive call : Type :=
| CallRegisterOutbound (version : Z) (f : OutboundCtor)
| CallRegisterInbound (version : Z) (f : InboundCtor)
| CallOutbound (core : runtimeCore) (version : Z)
| CallInbound (core : runtimeCore) (version : Z) (ibc : netConn).

Definition do_call (c : call) (p : Process) : outcome Process :=
  match c with
  | CallRegisterOutbound v f => RegisterOutboundRuntimeConnWithVersion v f p
  | CallRegisterInbound v f => RegisterInboundRuntimeConnWithVersion v f p
  | CallOutbound core v => Returned (snd (OutboundRuntimeConnWithVersion core v p))
  | CallInbound core v ibc => Returned (snd (InboundRuntimeConnWithVersion core v ibc p))
  end.

(** A straight-line run of the process through a list of calls; a panic
    ends it. *)
Fixpoint run (cs : list call) (p : Process) : outcome Process :=
  match cs with
  | [] => Returned p
  | c :: cs' =>
      match do_call c p with
      | Returned p' => run cs' p'
      | Panicked msg => Panicked msg
      end
  end.

End registry.

(** ** Package [v0]: the [connect] import of the capability shim *)

(** [wasmtime.Val]: the integer kinds by value, the float kinds by their bit
    pattern. *)
Inductive Val : Type :=
| ValI32 (n : Z)
| ValI64 (n : Z)
| ValF32 (bits : Z)
| ValF64 (bits : Z).

(** [wasmtime.Trap], built by [wasmtime.NewTrap] from its message. *)
Inductive Trap : Type :=
| NewTrap (message : string).

Section connect.

(** [Caller] is [*wasmtime.Caller]; [Store] is whatever a host function can
    act on through it. *)
Context {Caller Store : Type}.

(** The error codes of package [wasm], whose declarations are not among the
    sources at hand: the functions below take them as they come. *)
Variables (INVALID_ARGUMENT INVALID_FUNCTION : Z).

(** [WASIConnectFunc]: from the caller to a file descriptor and an error. *)
Definition WASIConnectFunc : Type :=
  Caller → Store → (Z * option error) * Store.

(** [wasm.WASMTIMEStoreIndependentFunction]: from the caller and the
    argument values to the result values and a trap. *)
Definition WASMTIMEStoreIndependentFunction : Type :=
  Caller → list Val → Store → (list Val * option Trap) * Store.

Definition expects_0_argument (got : nat) : string :=
  "v0.WASIConnectFunc expects 0 argument, got " +:+ fmt_d (Z.of_nat got).

Definition connect_failed (err : error) : string :=
  "v0.WASIConnectFunc: " +:+ err.

Definition WrapConnectFunc (f : WASIConnectFunc)
    : WASMTIMEStoreIndependentFunction :=
  λ caller vals s,
    if negb (length vals =? 0)%nat then
      (([ValI32 INVALID_ARGUMENT],
        Some (NewTrap (expects_0_argument (length vals)))), s)
    else
      let '((fd, err), s') := f caller s in
      match err with
      | Some e => (([ValI32 fd], Some (NewTrap (connect_failed e))), s')
      | None => (([ValI32 fd], None), s')
      end.

Definition unimplementedWASIConnectFunc : WASIConnectFunc :=
  λ _ s, ((INVALID_FUNCTION, Some "NOP WASIConnectFunc is called"), s).

Definition WrappedUnimplementedWASIConnectFunc
    : WASMTIMEStoreIndependentFunction :=
  WrapConnectFunc unimplementedWASIConnectFunc.

End connect.

(** A connect function that also counts how often it is entered; the count
    sits next to the store.  Used to observe whether a wrapper calls the
    function it wraps. *)
Definition counting {Caller Store : Type} (f : @WASIConnectFunc Caller Store)
    : @WASIConnectFunc Caller (Store * nat) :=
  λ caller sn, let '(r, s') := f caller sn.1 in (r, (s', S sn.2)).

(** ** Package [v0]: the managed dialer *)

Section managed_dialer.

(** [netConn] is [net.Conn]; [Net] is the network a dial acts on. *)
Context {netConn Net : Type}.

Definition DialerFunc : Type :=
  string → string → Net → (option netConn * option error) * Net.

(** The fields are unexported and nothing in the package assigns to them
    after construction, so the struct behind the pointer is a value. *)
Record ManagedDialer : Type := mkManagedDialer {
  network : string;
  address : string;
  dialerFunc : DialerFunc;
}.

Definition NewManagedDialer (network address : string)
    (dialerFunc : DialerFunc) : ManagedDialer :=
  {| network := network; address := address; dialerFunc := dialerFunc |}.

Definition Dial (md : ManagedDialer)
    : Net → (option netConn * option error) * Net :=
  dialerFunc md (network md) (address md).

(** [k] calls of [Dial] in a row, with their results in order. *)
Fixpoint dial_times (k : nat) (md : ManagedDialer) (n : Net)
    : list (option netConn * option error) * Net :=
  match k with
  | O => ([], n)
  | S k' =>
      let '(r, n1) := Dial md n in
      let '(rs, n2) := dial_times k' md n1 in
      (r :: rs, n2)
  end.

End managed_dialer.

(** A dial function that also records the destination of every call it
    receives; the record sits next to the network. *)
Definition recording {netConn Net : Type} (f : @DialerFunc netConn Net)
    : @DialerFunc netConn (Net * list (string * string)) :=
  λ network address nl,
    let '(r, n') := f network address nl.1 in
    (r, (n', (nl.2 ++ [(network, address)])%list)).

(** ** The runtime connection *)

(** Modelled from the spec: the runtime connection ([v0.Conn], returned by
    [Dial] and [Accept]) together with the transport module it hosts and the
    raw connection under it.  Their sources are not at hand; only the test
    [testDialerPlain] and the example [ExampleListener] that drive them are.
    What follows is section 4.5 of the specification (states, [read],
    [write], [close]), with the taxonomy of its section 7.  Deadlines are
    left out: a read that finds nothing pending is reported as [Blocks]. *)

Inductive ConnState : Type := Created | Active | Closed | Faulted.

(** Modelled from the spec: the errors of its section 7 that a caller of the
    stream interface can see. *)
Inductive ConnError : Type :=
| UseOfClosedConnection
| Timeout
| IOError (fault : string)
| ReleaseError (msg : string).

(** Modelled from the spec: what a call into an export of the guest gives,
    a result or a fault (a trap or a negative status, which the core does not
    tell apart). *)
Inductive GuestResult (A : Type) : Type :=
| GuestOk (a : A)
| GuestFault (msg : string).
Arguments GuestOk {A} a.
Arguments GuestFault {A} msg.

(** Modelled from the spec: what a [read] or a [write] gives its caller. *)
Inductive IOResult (A : Type) : Type :=
| Done (a : A)
| Failed (e : ConnError)
| Blocks.
Arguments Done {A} a.
Arguments Failed {A} e.
Arguments Blocks {A}.

(** Modelled from the spec: the raw connection under a runtime connection,
    an ordinary byte stream, seen from the host: the
    bytes the peer has sent and the host has not taken yet, the bytes the
    host has sent and the peer has not taken yet, and the error, if any, that
    releasing it gives. *)
Record RawConn : Type := mkRawConn {
  inbox : list byte;
  outbox : list byte;
  release : option string;
}.

(** Modelled from the spec: a transport module through its exports, over its
    own state [G].  [tm_write] turns the caller's bytes into the bytes to
    put on the raw connection, [tm_read] turns bytes taken from the raw
    connection into the bytes to hand to the caller. *)
Record TransportModule (G : Type) : Type := mkTransportModule {
  tm_init : G;
  tm_read : G → list byte → G * GuestResult (list byte);
  tm_write : G → list byte → G * GuestResult (list byte);
  tm_close : G → GuestResult unit;
}.
Arguments tm_init {G} _.
Arguments tm_read {G} _ _ _.
Arguments tm_write {G} _ _ _.
Arguments tm_close {G} _ _.

(** Modelled from the spec: the module of the concrete scenario, which
    reverses the bytes on read and on write and keeps no state. *)
Definition reverse_module : TransportModule unit :=
  {| tm_init := tt;
     tm_read := λ _ bs, (tt, GuestOk (rev bs));
     tm_write := λ _ bs, (tt, GuestOk (rev bs));
     tm_close := λ _, GuestOk tt |}.

Section runtime_connection.

Context {G : Type} (tm : TransportModule G).

(** Modelled from the spec: the connection owns its core, here the state of
    the guest and whether the instance is still live, and the raw
    connection. *)
Record Conn : Type := mkConn {
  state : ConnState;
  guest : G;
  core_live : bool;
  raw : RawConn;
}.

(** Modelled from the spec: a connection as construction leaves it, over
    the given raw connection. *)
Definition active_conn (r : RawConn) : Conn :=
  {| state := Active; guest := tm_init tm; core_live := true; raw := r |}.

(** Modelled from the spec: a guest fault moves the connection to
    [Faulted]. *)
Definition fault (c : Conn) (g : G) : Conn :=
  {| state := Faulted; guest := g; core_live := core_live c; raw := raw c |}.

(** Modelled from the spec: [read] into a buffer of capacity [cap]. *)
Definition read (cap : nat) (c : Conn) : IOResult (list byte) * Conn :=
  match state c with
  | Active =>
      match inbox (raw c) with
      | [] => (Blocks, c)
      | _ :: _ =>
          match tm_read tm (guest c) (take cap (inbox (raw c))) with
          | (g, GuestOk out) =>
              (Done (take cap out),
               {| state := Active; guest := g; core_live := core_live c;
                  raw := {| inbox := drop cap (inbox (raw c));
                            outbox := outbox (raw c);
                            release := release (raw c) |} |})
          | (g, GuestFault msg) => (Failed (IOError msg), fault c g)
          end
      end
  | _ => (Failed UseOfClosedConnection, c)
  end.

(** Modelled from the spec: [write] of the bytes [buf]. *)
Definition write (buf : list byte) (c : Conn) : IOResult nat * Conn :=
  match state c with
  | Active =>
      match tm_write tm (guest c) buf with
      | (g, GuestOk out) =>
          (Done (length buf),
           {| state := Active; guest := g; core_live := core_live c;
              raw := {| inbox := inbox (raw c);
                        outbox := (outbox (raw c) ++ out)%list;
                        release := release (raw c) |} |})
      | (g, GuestFault msg) => (Failed (IOError msg), fault c g)
      end
  | _ => (Failed UseOfClosedConnection, c)
  end.

(** Modelled from the spec: [close].  The guest's close export is called
    for its effect only and its fault, if any, is dropped; the core is torn
    down; a failure to release the raw connection is passed on.  On a
    closed connection nothing is done, and a faulted one behaves like a
    closed one. *)
Definition close (c : Conn) : option ConnError * Conn :=
  match state c with
  | Closed | Faulted => (None, c)
  | Created | Active =>
      let _ := tm_close tm (guest c) in
      (ReleaseError <$> release (raw c),
       {| state := Closed; guest := guest c; core_live := false;
          raw := {| inbox := inbox (raw c); outbox := outbox (raw c);
                    release := None |} |})
  end.

(** Modelled from the spec: the peer's end of the raw connection, a plain
    stream socket as in the test and the example. *)
Definition peer_read (cap : nat) (c : Conn) : IOResult (list byte) * Conn :=
  match outbox (raw c) with
  | [] => (Blocks, c)
  | _ :: _ =>
      (Done (take cap (outbox (raw c))),
       {| state := state c; guest := guest c; core_live := core_live c;
          raw := {| inbox := inbox (raw c);
                    outbox := drop cap (outbox (raw c));
                    release := release (raw c) |} |})
  end.

Definition peer_write (buf : list byte) (c : Conn) : IOResult nat * Conn :=
  (Done (length buf),
   {| state := state c; guest := guest c; core_live := core_live c;
      raw := {| inbox := (inbox (raw c) ++ buf)%list;
                outbox := outbox (raw c);
                release := release (raw c) |} |}).

(** The operations of the stream interface, and what one of them gives. *)
Inductive op : Type :=
| OpRead (cap : nat)
| OpWrite (buf : list byte)
| OpClose.

Inductive answer : Type :=
| ReadAnswer (r : IOResult (list byte))
| WriteAnswer (r : IOResult nat)
| CloseAnswer (r : option ConnError).

Definition perform (o : op) (c : Conn) : answer * Conn :=
  match o with
  | OpRead cap => let '(r, c') := read cap c in (ReadAnswer r, c')
  | OpWrite buf => let '(r, c') := write buf c in (WriteAnswer r, c')
  | OpClose => let '(r, c') := close c in (CloseAnswer r, c')
  end.

Fixpoint perform_all (os : list op) (c : Conn) : list answer * Conn :=
  match os with
  | [] => ([], c)
  | o :: os' =>
      let '(a, c1) := perform o c in
      let '(rest, c2) := perform_all os' c1 in
      (a :: rest, c2)
  end.

(** What the stream interface owes the caller of [o] on a closed
    connection. *)
Definition closed_answer (o : op) (a : answer) : Prop :=
  match o, a with
  | OpRead _, ReadAnswer r => r = Failed UseOfClosedConnection
  | OpWrite _, WriteAnswer r => r = Failed UseOfClosedConnection
  | OpClose, CloseAnswer r => r = None
  | _, _ => False
  end.

(** Closed for the caller: closed, or faulted. *)
Definition shut (c : Conn) : Prop := state c = Closed ∨ state c = Faulted.

(** One exchange as the test and the example run it, in lock step: the
    host writes [m1], the peer reads; the peer writes [m2], the host reads.
    Both read into buffers of capacity [cap].  The result is what the peer
    and the host observed, or [None] when a step failed or would wait. *)
Definition exchange (cap : nat) (m : list byte * list byte) (c : Conn)
    : option (list byte * list byte) * Conn :=
  match write m.1 c with
  | (Done _, c1) =>
      match peer_read cap c1 with
      | (Done seen_by_peer, c2) =>
          match peer_write m.2 c2 with
          | (Done _, c3) =>
              match read cap c3 with
              | (Done seen_by_host, c4) => (Some (seen_by_peer, seen_by_host), c4)
              | (_, c4) => (None, c4)
              end
          | (_, c3) => (None, c3)
          end
      | (_, c2) => (None, c2)
      end
  | (_, c1) => (None, c1)
  end.

Fixpoint exchanges (cap : nat) (ms : list (list byte * list byte)) (c : Conn)
    : option (list (list byte * list byte)) * Conn :=
  match ms with
  | [] => (Some [], c)
  | m :: ms' =>
      match exchange cap m c with
      | (Some obs, c1) =>
          match exchanges cap ms' c1 with
          | (Some rest, c2) => (Some (obs :: rest), c2)
          | (None, c2) => (None, c2)
          end
      | (None, c1) => (None, c1)
      end
  end.

End runtime_connection.

(** A message that one read into a buffer of capacity [cap] can take whole. *)
Definition fits (cap : nat) (m : list byte) : Prop :=
  (0 < length m ≤ cap)%nat.

(** The raw connection right after it is set up: nothing in flight. *)
Definition fresh_raw : RawConn :=
  {| inbox := []; outbox := []; release := None |}.

(** The five bytes of the scenario. *)
Definition hello : list byte := String.list_byte_of_string "hello".
Definition olleh : list byte := String.list_byte_of_string "olleh".

(** ** Runs of registrations *)

Section registry_runs.

Context {runtimeCore RuntimeConn netConn World : Type}.

Local Abbreviation call := (@call runtimeCore RuntimeConn netConn World).

(** Whether a call is one of the two registrations. *)
Definition is_registration (c : call) : bool :=
  match c with
  | CallRegisterOutbound _ _ | CallRegisterInbound _ _ => true
  | CallOutbound _ _ | CallInbound _ _ _ => false
  end.



End registry_runs.


(** ** The type of the [connect] import *)

(** [wasmtime.ValKind], for the kinds of [Val] above; a [wasmtime.ValType] is
    built from its kind by [wasmtime.NewValType] and stands for it. *)
Inductive ValKind : Type := KindI32 | KindI64 | KindF32 | KindF64.

(** [Val.Kind]. *)
Definition Val_Kind (v : Val) : ValKind :=
  match v with
  | ValI32 _ => KindI32
  | ValI64 _ => KindI64
  | ValF32 _ => KindF32
  | ValF64 _ => KindF64
  end.

(** [wasmtime.FuncType], built by [wasmtime.NewFuncType] from the parameter
    types and the result types. *)
Record FuncType : Type := NewFuncType {
  Params : list ValKind;
  Results : list ValKind;
}.

(** The signature of [WASIConnectFunc]: no parameter, one [i32] result, the
    file descriptor of the connection. *)
Definition WASIConnectFuncType : FuncType :=
  NewFuncType [] [KindI32].

(** The invocations of a host function that a guest makes in a row, each
    with its own argument values, and what each gives. *)
Fixpoint invoke_all {Caller Store : Type}
    (g : @WASMTIMEStoreIndependentFunction Caller Store) (caller : Caller)
    (argss : list (list Val)) (s : Store)
    : list (list Val * option Trap) * Store :=
  match argss with
  | [] => ([], s)
  | vals :: argss' =>
      let '(r, s1) := g caller vals s in
      let '(rs, s2) := invoke_all g caller argss' s1 in
      (r :: rs, s2)
  end.

(** One dial on each of the dialers [mds], in order, with the results. *)
Fixpoint dial_each {netConn Net : Type}
    (mds : list (@ManagedDialer netConn Net)) (n : Net)
    : list (option netConn * option error) * Net :=
  match mds with
  | [] => ([], n)
  | md :: mds' =>
      let '(r, n1) := Dial md n in
      let '(rs, n2) := dial_each mds' n1 in
      (r :: rs, n2)
  end.

(** ** Concrete inputs *)

(** A process with both registries empty, over one-point engine types. *)
Definition no_versions : @Process unit unit unit unit :=
  {| mapOBRCV := ∅; mapIBRCV := ∅; world := tt |}.

(** Constructors that build a connection and report no error. *)
Definition outbound_v0 : unit → unit → (option unit * option error) * unit :=
  λ _ w, ((Some tt, None), w).
Definition inbound_v0 : unit → unit → unit → (option unit * option error) * unit :=
  λ _ _ w, ((Some tt, None), w).

(** A process with version 0 registered in both registries. *)
Definition v0_registered : @Process unit unit unit unit :=
  {| mapOBRCV := {[ 0 := outbound_v0 ]};
     mapIBRCV := {[ 0 := inbound_v0 ]};
     world := tt |}.

(** A connect function whose dial is refused. *)
Definition refusing : @WASIConnectFunc unit unit :=
  λ _ s, ((-1, Some "connection refused"), s).

(** Ten exchanges of the scenario's message, each way. *)
Definition ten_hellos : list (list byte * list byte) :=
  replicate 10 (hello, hello).

(** A live connection hosting the reversing module, and the same once
    closed. *)
Definition live_conn : @Conn unit := active_conn reverse_module fresh_raw.
Definition closed_conn : @Conn unit :=
  {| state := Closed; guest := tt; core_live := false; raw := fresh_raw |}.

(** A connect function whose dial goes through, to file descriptor 3. *)
Definition connecting : @WASIConnectFunc unit unit :=
  λ _ s, ((3, None), s).

(** The registrations of two versions, outbound and inbound, as the
    initialisation of two transport packages would make them. *)
Definition two_versions : list (@call unit unit unit unit) :=
  [CallRegisterOutbound 0 outbound_v0; CallRegisterInbound 0 inbound_v0;
   CallRegisterOutbound 1 outbound_v0; CallRegisterInbound 1 inbound_v0].

(** The same registrations in another order. *)
Definition two_versions_shuffled : list (@call unit unit unit unit) :=
  [CallRegisterInbound 0 inbound_v0; CallRegisterOutbound 1 outbound_v0;
   CallRegisterInbound 1 inbound_v0; CallRegisterOutbound 0 outbound_v0].

(** The process after those registrations. *)
Definition v0_v1_registered : @Process unit unit unit unit :=
  {| mapOBRCV := <[1 := outbound_v0]> (<[0 := outbound_v0]> ∅);
     mapIBRCV := <[1 := inbound_v0]> (<[0 := inbound_v0]> ∅);
     world := tt |}.

(** * Properties *)

(** ** Formatting *)

Example fmt_d_negative : fmt_d (-5) = "-5".
Proof. reflexivity. Qed.

Example fmt_d_max_int32 : fmt_d 2147483647 = "2147483647".
Proof. vm_compute. reflexivity. Qed.

Example hello_bytes : hello = [x68; x65; x6c; x6c; x6f]%byte.
Proof. reflexivity. Qed.

Example olleh_is_hello_reversed : rev hello = olleh.
Proof. reflexivity. Qed.

(** ** The version registry *)

Section registry_facts.

Context {runtimeCore RuntimeConn netConn World : Type}.

Local Abbreviation Process := (@Process runtimeCore RuntimeConn netConn World).
Local Abbreviation OutboundCtor :=
  (runtimeCore → World → (option RuntimeConn * option error) * World).
Local Abbreviation InboundCtor :=
  (runtimeCore → netConn → World → (option RuntimeConn * option error) * World).
Local Abbreviation call := (@call runtimeCore RuntimeConn netConn World).

Implicit Types (p : Process) (v : Z) (core : runtimeCore) (ibc : netConn).

Lemma outbound_unknown core v p :
  mapOBRCV p !! v = None →
  OutboundRuntimeConnWithVersion core v p = ((None, Some (unknown_version v)), p).
Proof. unfold OutboundRuntimeConnWithVersion. by intros ->. Qed.

Lemma inbound_unknown core v ibc p :
  mapIBRCV p !! v = None →
  InboundRuntimeConnWithVersion core v ibc p = ((None, Some (unknown_version v)), p).
Proof. unfold InboundRuntimeConnWithVersion. by intros ->. Qed.

Lemma outbound_known core v p (f : OutboundCtor) :
  mapOBRCV p !! v = Some f →
  OutboundRuntimeConnWithVersion core v p
  = ((f core (world p)).1, set_world (f core (world p)).2 p).
Proof.
  unfold OutboundRuntimeConnWithVersion. intros ->.
  by destruct (f core (world p)).
Qed.

(** Neither lookup writes to a registry. *)
Lemma outbound_keeps_maps core v p :
  mapOBRCV (OutboundRuntimeConnWithVersion core v p).2 = mapOBRCV p
  ∧ mapIBRCV (OutboundRuntimeConnWithVersion core v p).2 = mapIBRCV p.
Proof.
  unfold OutboundRuntimeConnWithVersion.
  destruct (mapOBRCV p !! v) as [f|]; [|done].
  by destruct (f core (world p)).
Qed.

Lemma inbound_keeps_maps core v ibc p :
  mapOBRCV (InboundRuntimeConnWithVersion core v ibc p).2 = mapOBRCV p
  ∧ mapIBRCV (InboundRuntimeConnWithVersion core v ibc p).2 = mapIBRCV p.
Proof.
  unfold InboundRuntimeConnWithVersion.
  destruct (mapIBRCV p !! v) as [f|]; [|done].
  by destruct (f core ibc (world p)).
Qed.

(** An outbound entry, once there, outlives every call that returns: the
    registrations that return are those of other versions. *)
Lemma do_call_keeps_outbound (c : call) p p' v (f : OutboundCtor) :
  do_call c p = Returned p' →
  mapOBRCV p !! v = Some f →
  mapOBRCV p' !! v = Some f.
Proof.
  destruct c as [v' g|v' g|core v'|core v' ibc]; simpl.
  - unfold RegisterOutboundRuntimeConnWithVersion.
    destruct (mapOBRCV p !! v') eqn:Hv'; [done|].
    intros [= <-] Hv; simpl.
    rewrite lookup_insert_ne; [done|]. intros ->. congruence.
  - unfold RegisterInboundRuntimeConnWithVersion.
    destruct (mapIBRCV p !! v'); [done|]. by intros [= <-].
  - intros [= <-]. by rewrite (proj1 (outbound_keeps_maps core v' p)).
  - intros [= <-]. by rewrite (proj1 (inbound_keeps_maps core v' ibc p)).
Qed.

Lemma run_keeps_outbound (cs : list call) p p' v (f : OutboundCtor) :
  run cs p = Returned p' →
  mapOBRCV p !! v = Some f →
  mapOBRCV p' !! v = Some f.
Proof.
  revert p. induction cs as [|c cs IH]; intros p; simpl.
  - by intros [= <-].
  - destruct (do_call c p) as [p1|msg] eqn:Hc; [|done].
    intros Hrun Hv. apply (IH p1); [done|].
    by eapply do_call_keeps_outbound.
Qed.

(** C1.  A version with no registered outbound constructor makes
    [OutboundRuntimeConnWithVersion] return no connection and the
    unknown-version error, whatever the core; a version with no registered
    inbound constructor makes [InboundRuntimeConnWithVersion] do the same,
    whatever the core and the raw connection.  No constructor runs: the
    process is left as it was. *)
Theorem C1_unknown_version v p :
  (mapOBRCV p !! v = None →
    ∀ core, OutboundRuntimeConnWithVersion core v p
            = ((None, Some ("water: unknown version: " +:+ fmt_d v)), p))
  ∧ (mapIBRCV p !! v = None →
    ∀ core ibc, InboundRuntimeConnWithVersion core v ibc p
            = ((None, Some ("water: unknown version: " +:+ fmt_d v)), p)).
Proof.
  split; intros Hv; intros.
  - by apply outbound_unknown.
  - by apply inbound_unknown.
Qed.

(** C2.  Registering a version that the outbound (resp. inbound) registry
    already holds panics, whatever the constructor: the call does not
    return, so the entry is neither replaced nor kept by it. *)
Theorem C2_register_twice_panics v p :
  (is_Some (mapOBRCV p !! v) →
    ∀ f : OutboundCtor,
      RegisterOutboundRuntimeConnWithVersion v f p
      = Panicked ("water: version " +:+ fmt_d v +:+ " already registered"))
  ∧ (is_Some (mapIBRCV p !! v) →
    ∀ f : InboundCtor,
      RegisterInboundRuntimeConnWithVersion v f p
      = Panicked ("water: version " +:+ fmt_d v +:+ " already registered")).
Proof.
  split; intros [g Hg] f.
  - unfold RegisterOutboundRuntimeConnWithVersion. by rewrite Hg.
  - unfold RegisterInboundRuntimeConnWithVersion. by rewrite Hg.
Qed.

(** C10.  Registering [f] as the outbound constructor of a version [v]
    that had none returns; from then on, and after any further calls that
    return, [OutboundRuntimeConnWithVersion core v] gives exactly what
    [f core] gives; a lookup leaves both registries as they were; and the
    inbound registry is untouched by the registration, so that [v] is
    still an unknown inbound version if it was one before. *)
Theorem C10_registered_then_found v (f : OutboundCtor) p :
  mapOBRCV p !! v = None →
  ∃ p1,
    RegisterOutboundRuntimeConnWithVersion v f p = Returned p1
    ∧ (∀ (cs : list call) p2 core,
        run cs p1 = Returned p2 →
        OutboundRuntimeConnWithVersion core v p2
        = ((f core (world p2)).1, set_world (f core (world p2)).2 p2))
    ∧ (∀ core v' p2,
        mapOBRCV (OutboundRuntimeConnWithVersion core v' p2).2 = mapOBRCV p2
        ∧ mapIBRCV (OutboundRuntimeConnWithVersion core v' p2).2 = mapIBRCV p2)
    ∧ mapIBRCV p1 = mapIBRCV p
    ∧ (mapIBRCV p !! v = None →
        ∀ core ibc,
          InboundRuntimeConnWithVersion core v ibc p1
          = ((None, Some (unknown_version v)), p1)).
Proof.
  intros Hv. unfold RegisterOutboundRuntimeConnWithVersion. rewrite Hv.
  eexists; split; [done|]. split; [|split; [|split]].
  - intros cs p2 core Hrun. apply outbound_known.
    eapply run_keeps_outbound; [done|]. simpl. apply lookup_insert_eq.
  - intros. apply outbound_keeps_maps.
  - done.
  - intros Hi core ibc. by apply inbound_unknown.
Qed.

End registry_facts.

Lemma C1_unknown_version_witness :
  (mapOBRCV no_versions !! 7 = None ∧ mapIBRCV no_versions !! 7 = None)
  ∧ OutboundRuntimeConnWithVersion tt 7 no_versions
    = ((None, Some "water: unknown version: 7"), no_versions)
  ∧ InboundRuntimeConnWithVersion tt 7 tt no_versions
    = ((None, Some "water: unknown version: 7"), no_versions).
Proof.
  split; [split; reflexivity|].
  split.
  - apply (proj1 (C1_unknown_version 7 no_versions)). reflexivity.
  - apply (proj2 (C1_unknown_version 7 no_versions)). reflexivity.
Defined.

Lemma C2_register_twice_panics_witness :
  (is_Some (mapOBRCV v0_registered !! 0) ∧ is_Some (mapIBRCV v0_registered !! 0))
  ∧ RegisterOutboundRuntimeConnWithVersion 0 outbound_v0 v0_registered
    = Panicked "water: version 0 already registered"
  ∧ RegisterInboundRuntimeConnWithVersion 0 inbound_v0 v0_registered
    = Panicked "water: version 0 already registered".
Proof.
  split; [split; eexists; reflexivity|].
  split.
  - apply (proj1 (C2_register_twice_panics 0 v0_registered)).
    eexists; reflexivity.
  - apply (proj2 (C2_register_twice_panics 0 v0_registered)).
    eexists; reflexivity.
Defined.

Lemma C10_registered_then_found_witness :
  mapOBRCV no_versions !! 0 = None
  ∧ ∃ p1,
      RegisterOutboundRuntimeConnWithVersion 0 outbound_v0 no_versions = Returned p1
      ∧ OutboundRuntimeConnWithVersion tt 0 p1 = ((Some tt, None), p1)
      ∧ InboundRuntimeConnWithVersion tt 0 tt p1
        = ((None, Some "water: unknown version: 0"), p1).
Proof.
  split; [reflexivity|].
  destruct (C10_registered_then_found 0 outbound_v0 no_versions eq_refl)
    as (p1 & Hreg & Hfound & _ & _ & Hinbound).
  exists p1. split; [exact Hreg|]. split.
  - rewrite (Hfound [] p1 tt eq_refl). by destruct p1 as [? ? []].
  - apply Hinbound. reflexivity.
Defined.

(** ** The [connect] import *)

Section connect_facts.

Context {Caller Store : Type}.
Variables (INVALID_ARGUMENT INVALID_FUNCTION : Z).

(** The specification has every error code of the shim negative. *)
Hypothesis INVALID_ARGUMENT_negative : INVALID_ARGUMENT < 0.
Hypothesis INVALID_FUNCTION_negative : INVALID_FUNCTION < 0.

Implicit Types (caller : Caller) (vals : list Val).

Lemma WrapConnectFunc_args {S : Type} (f : @WASIConnectFunc Caller S)
    caller vals (s : S) :
  vals ≠ [] →
  WrapConnectFunc INVALID_ARGUMENT f caller vals s
  = (([ValI32 INVALID_ARGUMENT],
      Some (NewTrap (expects_0_argument (length vals)))), s).
Proof. unfold WrapConnectFunc. by destruct vals. Qed.

Lemma WrapConnectFunc_no_args {S : Type} (f : @WASIConnectFunc Caller S)
    caller (s : S) :
  WrapConnectFunc INVALID_ARGUMENT f caller [] s
  = match (f caller s).1.2 with
    | Some e =>
        (([ValI32 (f caller s).1.1], Some (NewTrap (connect_failed e))),
         (f caller s).2)
    | None => (([ValI32 (f caller s).1.1], None), (f caller s).2)
    end.
Proof.
  unfold WrapConnectFunc; simpl.
  by destruct (f caller s) as [[fd [e|]] s'].
Qed.

(** The two trap messages differ in their nineteenth character. *)
Lemma connect_failed_not_args (e : error) (got : nat) :
  connect_failed e ≠ expects_0_argument got.
Proof. unfold connect_failed, expects_0_argument; simpl. discriminate. Qed.

(** C3, as the code has it.  When the connect function returns an error
    to a call with no arguments, the wrapped function hands the guest the
    code that the connect function returned, and with it a trap whose
    message is that of the error; the store is as the connect function
    left it. *)
Theorem C3_error_is_returned_with_trap (f : @WASIConnectFunc Caller Store)
    caller s fd e s' :
  f caller s = ((fd, Some e), s') →
  WrapConnectFunc INVALID_ARGUMENT f caller [] s
  = (([ValI32 fd], Some (NewTrap ("v0.WASIConnectFunc: " +:+ e))), s').
Proof. intros Hf. rewrite WrapConnectFunc_no_args, Hf. done. Qed.

(** C5.  The stubbed connect function gives the invalid-function code,
    which is negative, together with an error, whatever the caller.  Once
    wrapped, a call with no arguments hands the guest that code with a trap,
    and no call at all, whatever its arguments, comes back without a trap
    or with a code that could pass for a file handle. *)
Theorem C5_unimplemented_connect caller (s : Store) :
  unimplementedWASIConnectFunc INVALID_FUNCTION caller s
  = ((INVALID_FUNCTION, Some "NOP WASIConnectFunc is called"), s)
  ∧ INVALID_FUNCTION < 0
  ∧ WrappedUnimplementedWASIConnectFunc INVALID_ARGUMENT INVALID_FUNCTION
      caller [] s
    = (([ValI32 INVALID_FUNCTION],
        Some (NewTrap "v0.WASIConnectFunc: NOP WASIConnectFunc is called")), s)
  ∧ ∀ vals, ∃ code trap,
      WrappedUnimplementedWASIConnectFunc INVALID_ARGUMENT INVALID_FUNCTION
        caller vals s
      = (([ValI32 code], Some trap), s)
      ∧ code < 0.
Proof.
  split; [done|]. split; [done|]. split; [done|].
  intros [|val vals].
  - by exists INVALID_FUNCTION, (NewTrap (connect_failed "NOP WASIConnectFunc is called")).
  - by exists INVALID_ARGUMENT, (NewTrap (expects_0_argument (length (val :: vals)))).
Qed.

(** C9.  Called with a non-empty argument list, the wrapped function gives
    the invalid-argument code, which is negative, together with the
    argument-count trap, and leaves the store alone; it does not enter the
    connect function, as the count of a counting connect function shows.
    Called with no argument it enters the connect function once, its
    results are those of the connect function, and its trap, if there is
    one, is not the argument-count trap. *)
Theorem C9_argument_count_guard (f : @WASIConnectFunc Caller Store)
    caller vals s (n : nat) :
  (vals ≠ [] →
    WrapConnectFunc INVALID_ARGUMENT f caller vals s
    = (([ValI32 INVALID_ARGUMENT],
        Some (NewTrap ("v0.WASIConnectFunc expects 0 argument, got "
                       +:+ fmt_d (Z.of_nat (length vals))))), s)
    ∧ INVALID_ARGUMENT < 0
    ∧ (WrapConnectFunc INVALID_ARGUMENT (counting f) caller vals (s, n)).2
      = (s, n))
  ∧ (vals = [] →
    (WrapConnectFunc INVALID_ARGUMENT (counting f) caller vals (s, n)).2
    = ((f caller s).2, S n)
    ∧ (WrapConnectFunc INVALID_ARGUMENT f caller vals s).1.1
      = [ValI32 (f caller s).1.1]
    ∧ (WrapConnectFunc INVALID_ARGUMENT f caller vals s).2 = (f caller s).2
    ∧ ∀ got : nat,
        (WrapConnectFunc INVALID_ARGUMENT f caller vals s).1.2
        ≠ Some (NewTrap (expects_0_argument got))).
Proof.
  split.
  - intros Hvals. rewrite !WrapConnectFunc_args by done. done.
  - intros ->. rewrite !WrapConnectFunc_no_args.
    unfold counting; cbn [fst snd].
    destruct (f caller s) as [[fd [e|]] s']; cbn [fst snd];
      do 3 (split; [reflexivity|]); intros got.
    + intros He. apply (connect_failed_not_args e got). congruence.
    + discriminate.
Qed.

End connect_facts.

Lemma C3_trap_is_raised :
  refusing tt tt = ((-1, Some "connection refused"), tt)
  ∧ WrapConnectFunc (-2) refusing tt [] tt
    = (([ValI32 (-1)], Some (NewTrap "v0.WASIConnectFunc: connection refused")), tt)
  ∧ (WrapConnectFunc (-2) refusing tt [] tt).1.2 ≠ None.
Proof. split; [reflexivity|]. split; [reflexivity|]. discriminate. Qed.

Lemma C3_error_is_returned_with_trap_witness :
  refusing tt tt = ((-1, Some "connection refused"), tt)
  ∧ WrapConnectFunc (-2) refusing tt [] tt
    = (([ValI32 (-1)], Some (NewTrap "v0.WASIConnectFunc: connection refused")), tt).
Proof.
  split; [reflexivity|].
  apply (C3_error_is_returned_with_trap (-2) refusing tt tt (-1)
           "connection refused" tt).
  reflexivity.
Defined.

Lemma C5_unimplemented_connect_witness :
  (-2 < 0 ∧ -5 < 0)
  ∧ unimplementedWASIConnectFunc (-5) tt tt
    = ((-5, Some "NOP WASIConnectFunc is called"), tt)
  ∧ WrappedUnimplementedWASIConnectFunc (-2) (-5) tt [] tt
    = (([ValI32 (-5)],
        Some (NewTrap "v0.WASIConnectFunc: NOP WASIConnectFunc is called")), tt).
Proof.
  split; [lia|].
  destruct (C5_unimplemented_connect (Caller := unit) (Store := unit)
              (-2) (-5) ltac:(lia) ltac:(lia) tt tt)
    as (Hstub & _ & Hwrapped & _).
  split; [exact Hstub | exact Hwrapped].
Defined.

Lemma C9_argument_count_guard_witness :
  (-2 < 0 ∧ [ValI32 0] ≠ [])
  ∧ WrapConnectFunc (-2) refusing tt [ValI32 0] tt
    = (([ValI32 (-2)],
        Some (NewTrap "v0.WASIConnectFunc expects 0 argument, got 1")), tt)
  ∧ (WrapConnectFunc (-2) (counting refusing) tt [ValI32 0] (tt, 0%nat)).2
    = (tt, 0%nat)
  ∧ (WrapConnectFunc (-2) (counting refusing) tt [] (tt, 0%nat)).2
    = (tt, 1%nat).
Proof.
  split; [split; [lia|discriminate]|].
  destruct (C9_argument_count_guard (-2) ltac:(lia) refusing tt [ValI32 0] tt 0%nat)
    as [Hargs _].
  destruct (Hargs ltac:(discriminate)) as (Hres & _ & Hcount).
  destruct (C9_argument_count_guard (-2) ltac:(lia) refusing tt [] tt 0%nat)
    as [_ Hnone].
  destruct (Hnone eq_refl) as (Hentered & _).
  split; [exact Hres|]. split; [exact Hcount | exact Hentered].
Defined.

(** ** The managed dialer *)

Section managed_dialer_facts.

Context {netConn Net : Type}.

Lemma dial_times_recorded (f : @DialerFunc netConn Net) network address
    (k : nat) (n : Net) (log : list (string * string)) :
  (dial_times k (NewManagedDialer network address (recording f)) (n, log)).2.2
  = (log ++ replicate k (network, address))%list.
Proof.
  revert n log. induction k as [|k IH]; intros n log; simpl.
  - by rewrite app_nil_r.
  - unfold Dial, recording at 1; simpl.
    destruct (f network address n) as [r n1]; simpl.
    specialize (IH n1 (log ++ [(network, address)])%list).
    destruct (dial_times k _ _) as [rs n2]; simpl in *.
    by rewrite IH, <- app_assoc.
Qed.

(** C4.  A dialer built by [NewManagedDialer network address dialerFunc]
    holds that destination; [Dial], which takes no argument, is the call
    of [dialerFunc] on it and returns what that call returns; and however
    many dials are made, a recording dial function sees that destination
    and no other. *)
Theorem C4_dial_is_bound (f : @DialerFunc netConn Net) (net addr : string) :
  network (NewManagedDialer net addr f) = net
  ∧ address (NewManagedDialer net addr f) = addr
  ∧ (∀ n : Net, Dial (NewManagedDialer net addr f) n = f net addr n)
  ∧ (∀ (k : nat) (n : Net) (log : list (string * string)),
      (dial_times k (NewManagedDialer net addr (recording f)) (n, log)).2.2
      = (log ++ replicate k (net, addr))%list).
Proof.
  repeat split. intros. apply dial_times_recorded.
Qed.

End managed_dialer_facts.

(** ** The runtime connection *)

Section runtime_connection_facts.

Context {G : Type} (tm : TransportModule G).

Implicit Types (c : @Conn G) (o : op) (os : list op).

Lemma close_shuts c :
  shut (close tm c).2.
Proof. unfold shut, close. destruct (state c) eqn:Hs; simpl; auto. Qed.

Lemma perform_shut o c :
  shut c →
  closed_answer o (perform tm o c).1 ∧ (perform tm o c).2 = c.
Proof.
  intros [Hs|Hs]; destruct o; simpl;
    unfold read, write, close; rewrite Hs; simpl; done.
Qed.

Lemma perform_all_shut os c :
  shut c →
  Forall2 closed_answer os (perform_all tm os c).1.
Proof.
  intros Hc. induction os as [|o os IH]; simpl; [constructor|].
  destruct (perform_shut o c Hc) as [Ha Hsame].
  destruct (perform tm o c) as [a c1]; simpl in *; subst c1.
  destruct (perform_all tm os c) as [rest c2]; simpl in *.
  by constructor.
Qed.

(** C6.  Once [close] has returned without an error, every later [read]
    and every later [write] fails, with the use-of-closed-connection error,
    and every later [close] returns without an error and changes nothing,
    in whatever order and number they come. *)
Theorem C6_closed_is_final c c' :
  close tm c = (None, c') →
  (∀ os, Forall2 closed_answer os (perform_all tm os c').1)
  ∧ (∀ cap, read tm cap c' = (Failed UseOfClosedConnection, c'))
  ∧ (∀ buf, write tm buf c' = (Failed UseOfClosedConnection, c'))
  ∧ close tm c' = (None, c').
Proof.
  intros Hclose.
  assert (Hshut : shut c') by (pose proof (close_shuts c) as H; by rewrite Hclose in H).
  split; [intros; by apply perform_all_shut|].
  destruct Hshut as [Hs|Hs]; unfold read, write, close; rewrite Hs; done.
Qed.

End runtime_connection_facts.

Lemma C6_closed_is_final_witness :
  close reverse_module live_conn = (None, closed_conn)
  ∧ Forall2 closed_answer [OpWrite hello; OpRead 1024; OpClose; OpRead 1024]
      (perform_all reverse_module
         [OpWrite hello; OpRead 1024; OpClose; OpRead 1024] closed_conn).1
  ∧ read reverse_module 1024 closed_conn = (Failed UseOfClosedConnection, closed_conn)
  ∧ write reverse_module hello closed_conn = (Failed UseOfClosedConnection, closed_conn)
  ∧ close reverse_module closed_conn = (None, closed_conn).
Proof.
  split; [reflexivity|].
  destruct (C6_closed_is_final reverse_module live_conn closed_conn eq_refl)
    as (Hall & Hread & Hwrite & Hclose).
  split; [apply Hall|]. split; [apply Hread|]. split; [apply Hwrite | exact Hclose].
Defined.

Section reverse_facts.

Implicit Types (m : list byte) (r : RawConn).

Lemma take_rev_fits cap m : fits cap m → take cap (rev m) = rev m.
Proof. intros [_ Hle]. apply take_ge. rewrite length_rev. lia. Qed.

Lemma drop_rev_fits cap m : fits cap m → drop cap (rev m) = [].
Proof. intros [_ Hle]. apply drop_ge. rewrite length_rev. lia. Qed.

Lemma rev_fits_cons cap m : fits cap m → ∃ b bs, rev m = b :: bs.
Proof.
  intros [Hpos _]. destruct (rev m) as [|b bs] eqn:Hr; [|by eauto].
  apply (f_equal length) in Hr. rewrite length_rev in Hr. simpl in Hr. lia.
Qed.

Lemma fits_cons cap m : fits cap m → ∃ b bs, m = b :: bs.
Proof. intros [Hpos _]. destruct m; simpl in *; [lia|by eauto]. Qed.

Local Abbreviation conn i o rel :=
  (active_conn reverse_module {| inbox := i; outbox := o; release := rel |}).

Lemma write_reverse m i o rel :
  write reverse_module m (conn i o rel)
  = (Done (length m), conn i (o ++ rev m)%list rel).
Proof. reflexivity. Qed.

Lemma peer_write_appends m i o rel :
  peer_write m (conn i o rel) = (Done (length m), conn (i ++ m)%list o rel).
Proof. reflexivity. Qed.

Lemma peer_read_fits cap m i rel :
  fits cap m →
  peer_read cap (conn i (rev m) rel) = (Done (rev m), conn i [] rel).
Proof.
  intros Hm. unfold peer_read, active_conn; simpl.
  rewrite (take_rev_fits cap m Hm), (drop_rev_fits cap m Hm).
  by destruct (rev_fits_cons cap m Hm) as (b & bs & ->).
Qed.

Lemma read_reverse_fits cap m o rel :
  fits cap m →
  read reverse_module cap (conn m o rel) = (Done (rev m), conn [] o rel).
Proof.
  intros Hm. unfold read, active_conn; simpl.
  rewrite (take_ge m cap), (drop_ge m cap) by (destruct Hm; lia).
  rewrite (take_rev_fits cap m Hm).
  by destruct (fits_cons cap m Hm) as (b & bs & ->).
Qed.

(** One exchange over an idle connection: the peer sees the host's message
    reversed, the host sees the peer's message reversed, and the
    connection is idle again. *)
Lemma exchange_reverse cap (x : list byte * list byte) rel :
  fits cap x.1 → fits cap x.2 →
  exchange reverse_module cap x (conn [] [] rel)
  = (Some (rev x.1, rev x.2), conn [] [] rel).
Proof.
  intros H1 H2. unfold exchange.
  rewrite write_reverse; simpl app.
  rewrite (peer_read_fits cap _ _ _ H1).
  rewrite peer_write_appends; simpl app.
  by rewrite (read_reverse_fits cap _ _ _ H2).
Qed.

Lemma exchanges_reverse cap (ms : list (list byte * list byte)) rel :
  Forall (λ x, fits cap x.1 ∧ fits cap x.2) ms →
  exchanges reverse_module cap ms (conn [] [] rel)
  = (Some ((λ x, (rev x.1, rev x.2)) <$> ms), conn [] [] rel).
Proof.
  induction 1 as [|x ms [H1 H2] _ IH]; [done|].
  cbn [exchanges]. rewrite (exchange_reverse cap x rel H1 H2), IH. done.
Qed.

(** C8.  Over a connection whose module reverses the bytes on read and on
    write, with nothing in flight at the start, any number of exchanges in
    a row, ten or more among them, goes through: in each the peer observes
    the reverse of what the host wrote and the host observes the reverse of
    what the peer wrote, exchange by exchange in the order written, and
    nothing is left in flight.  The messages are those that a read takes
    whole: not empty and no longer than the read buffers. *)
Theorem C8_reverse_round_trips cap (ms : list (list byte * list byte)) :
  Forall (λ x, fits cap x.1 ∧ fits cap x.2) ms →
  exchanges reverse_module cap ms (active_conn reverse_module fresh_raw)
  = (Some ((λ x, (rev x.1, rev x.2)) <$> ms),
     active_conn reverse_module fresh_raw).
Proof. apply exchanges_reverse. Qed.

End reverse_facts.

Lemma C8_reverse_round_trips_witness :
  Forall (λ x, fits 1024 x.1 ∧ fits 1024 x.2) ten_hellos
  ∧ exchanges reverse_module 1024 ten_hellos live_conn
    = (Some (replicate 10 (olleh, olleh)), live_conn).
Proof.
  assert (Hfits : Forall (λ x, fits 1024 x.1 ∧ fits 1024 x.2) ten_hellos).
  { repeat (constructor; [unfold fits; simpl; lia|]). constructor. }
  split; [exact Hfits|].
  exact (C8_reverse_round_trips 1024 ten_hellos Hfits).
Defined.

(** * Further properties *)

(** ** The registry under runs of calls *)

Section registry_run_facts.

Context {runtimeCore RuntimeConn netConn World : Type}.

Local Abbreviation Process := (@Process runtimeCore RuntimeConn netConn World).
Local Abbreviation OutboundCtor :=
  (runtimeCore → World → (option RuntimeConn * option error) * World).
Local Abbreviation InboundCtor :=
  (runtimeCore → netConn → World → (option RuntimeConn * option error) * World).
Local Abbreviation call := (@call runtimeCore RuntimeConn netConn World).

Implicit Types (p : Process) (v : Z) (core : runtimeCore) (ibc : netConn).
Implicit Types (c : call) (cs : list call).

Lemma inbound_known core v ibc p (f : InboundCtor) :
  mapIBRCV p !! v = Some f →
  InboundRuntimeConnWithVersion core v ibc p
  = ((f core ibc (world p)).1, set_world (f core ibc (world p)).2 p).
Proof.
  unfold InboundRuntimeConnWithVersion. intros ->.
  by destruct (f core ibc (world p)).
Qed.

(** What a call that returns does to the two registries. *)
Lemma do_call_maps c p p' :
  do_call c p = Returned p' →
  match c with
  | CallRegisterOutbound v f =>
      mapOBRCV p !! v = None
      ∧ mapOBRCV p' = <[v := f]> (mapOBRCV p) ∧ mapIBRCV p' = mapIBRCV p
  | CallRegisterInbound v f =>
      mapIBRCV p !! v = None
      ∧ mapOBRCV p' = mapOBRCV p ∧ mapIBRCV p' = <[v := f]> (mapIBRCV p)
  | _ => mapOBRCV p' = mapOBRCV p ∧ mapIBRCV p' = mapIBRCV p
  end.
Proof.
  destruct c as [v f|v f|core v|core v ibc]; simpl.
  - unfold RegisterOutboundRuntimeConnWithVersion.
    destruct (mapOBRCV p !! v); [done|]. by intros [= <-].
  - unfold RegisterInboundRuntimeConnWithVersion.
    destruct (mapIBRCV p !! v); [done|]. by intros [= <-].
  - intros [= <-]. apply outbound_keeps_maps.
  - intros [= <-]. apply inbound_keeps_maps.
Qed.

Lemma do_call_keeps_inbound c p p' v (f : InboundCtor) :
  do_call c p = Returned p' →
  mapIBRCV p !! v = Some f →
  mapIBRCV p' !! v = Some f.
Proof.
  intros Hc Hv. apply do_call_maps in Hc.
  destruct c as [v' g|v' g|core v'|core v' ibc].
  - destruct Hc as (_ & _ & ->). done.
  - destruct Hc as (Hfresh & _ & ->).
    rewrite lookup_insert_ne; [done|]. intros ->. congruence.
  - destruct Hc as [_ ->]. done.
  - destruct Hc as [_ ->]. done.
Qed.

Lemma run_keeps_inbound cs p p' v (f : InboundCtor) :
  run cs p = Returned p' →
  mapIBRCV p !! v = Some f →
  mapIBRCV p' !! v = Some f.
Proof.
  revert p. induction cs as [|c cs IH]; intros p; simpl.
  - by intros [= <-].
  - destruct (do_call c p) as [p1|msg] eqn:Hc; [|done].
    eauto using do_call_keeps_inbound.
Qed.

(** X1.  The inbound registry mirrors the outbound one: registering [f]
    for a version that had no inbound constructor returns and touches
    neither the outbound registry nor the rest of the process; after any
    further calls that return, the inbound lookup of that version hands the
    core and the accepted raw connection to [f] and gives what [f] gives. *)
Theorem inbound_registered_then_found v (f : InboundCtor) p :
  mapIBRCV p !! v = None →
  ∃ p1,
    RegisterInboundRuntimeConnWithVersion v f p = Returned p1
    ∧ mapOBRCV p1 = mapOBRCV p
    ∧ world p1 = world p
    ∧ ∀ cs p2 core ibc,
        run cs p1 = Returned p2 →
        InboundRuntimeConnWithVersion core v ibc p2
        = ((f core ibc (world p2)).1, set_world (f core ibc (world p2)).2 p2).
Proof.
  intros Hv. unfold RegisterInboundRuntimeConnWithVersion. rewrite Hv.
  eexists. split; [reflexivity|]. do 2 (split; [reflexivity|]).
  intros cs p2 core ibc Hrun. apply inbound_known.
  eapply run_keeps_inbound; [exact Hrun|]. simpl. apply lookup_insert_eq.
Qed.

(** X2.  A registration that returns is invisible to every other lookup:
    after registering an outbound constructor for [v], the outbound lookup
    of any other version and the inbound lookup of any version give the
    result they gave before and leave the rest of the process as they left
    it before; the registration itself leaves the rest of the process
    alone. *)
Theorem register_outbound_frames v (f : OutboundCtor) p p1 :
  RegisterOutboundRuntimeConnWithVersion v f p = Returned p1 →
  world p1 = world p
  ∧ (∀ core v', v' ≠ v →
      (OutboundRuntimeConnWithVersion core v' p1).1
      = (OutboundRuntimeConnWithVersion core v' p).1
      ∧ world (OutboundRuntimeConnWithVersion core v' p1).2
        = world (OutboundRuntimeConnWithVersion core v' p).2)
  ∧ (∀ core v' ibc,
      (InboundRuntimeConnWithVersion core v' ibc p1).1
      = (InboundRuntimeConnWithVersion core v' ibc p).1
      ∧ world (InboundRuntimeConnWithVersion core v' ibc p1).2
        = world (InboundRuntimeConnWithVersion core v' ibc p).2).
Proof.
  unfold RegisterOutboundRuntimeConnWithVersion.
  destruct (mapOBRCV p !! v) eqn:Hv; [done|]. intros [= <-].
  split; [reflexivity|]. split.
  - intros core v' Hne. unfold OutboundRuntimeConnWithVersion; simpl.
    rewrite lookup_insert_ne by done.
    destruct (mapOBRCV p !! v') as [g|]; [|done].
    by destruct (g core (world p)).
  - intros core v' ibc. unfold InboundRuntimeConnWithVersion; simpl.
    destruct (mapIBRCV p !! v') as [g|]; [|done].
    by destruct (g core ibc (world p)).
Qed.

End registry_run_facts.

Section registry_init_facts.

Context {runtimeCore RuntimeConn netConn World : Type}.

Local Abbreviation Process := (@Process runtimeCore RuntimeConn netConn World).
Local Abbreviation OutboundCtor :=
  (runtimeCore → World → (option RuntimeConn * option error) * World).
Local Abbreviation InboundCtor :=
  (runtimeCore → netConn → World → (option RuntimeConn * option error) * World).
Local Abbreviation call := (@call runtimeCore RuntimeConn netConn World).

Implicit Types (p : Process) (v : Z) (c : call) (cs : list call).



Lemma insert_fresh_Some {A} (m : gmap Z A) v0 (x0 : A) v (x : A) :
  m !! v0 = None →
  <[v0 := x0]> m !! v = Some x ↔ m !! v = Some x ∨ (v = v0 ∧ x = x0).
Proof.
  intros Hfresh. rewrite lookup_insert_Some. split.
  - intros [[-> ->]|[_ Hv]]; auto.
  - intros [Hv|[-> ->]]; [right|by left].
    split; [|done]. intros ->. congruence.
Qed.

(** X4.  After a run that returns, each registry holds exactly what it
    held at the start together with what the run registered, every entry
    with the constructor it was registered with: nothing is dropped and
    nothing is replaced. *)
Theorem run_registry_exact cs p p' :
  run cs p = Returned p' →
  (∀ v (f : OutboundCtor),
      mapOBRCV p' !! v = Some f
      ↔ mapOBRCV p !! v = Some f ∨ CallRegisterOutbound v f ∈ cs)
  ∧ (∀ v (f : InboundCtor),
      mapIBRCV p' !! v = Some f
      ↔ mapIBRCV p !! v = Some f ∨ CallRegisterInbound v f ∈ cs).
Proof.
  revert p. induction cs as [|c cs IH]; intros p; cbn [run].
  - intros [= <-]. split; intros v f; rewrite elem_of_nil; tauto.
  - destruct (do_call c p) as [p1|msg] eqn:Hc; [|done].
    intros Hrun. destruct (IH p1 Hrun) as [IHo IHi]. clear IH Hrun.
    apply do_call_maps in Hc.
    split; intros v f; [rewrite IHo|rewrite IHi]; rewrite elem_of_cons;
      destruct c as [v0 f0|v0 f0|core v0|core v0 ibc].
    + destruct Hc as (Hfresh & -> & _).
      rewrite (insert_fresh_Some _ v0 f0 v f Hfresh).
      split; [intros [[?|[-> ->]]|?]|intros [?|[[= -> ->]|?]]]; auto.
    + destruct Hc as (_ & -> & _).
      split; [intros [?|?]|intros [?|[?|?]]]; auto; discriminate.
    + destruct Hc as [-> _].
      split; [intros [?|?]|intros [?|[?|?]]]; auto; discriminate.
    + destruct Hc as [-> _].
      split; [intros [?|?]|intros [?|[?|?]]]; auto; discriminate.
    + destruct Hc as (_ & _ & ->).
      split; [intros [?|?]|intros [?|[?|?]]]; auto; discriminate.
    + destruct Hc as (Hfresh & _ & ->).
      rewrite (insert_fresh_Some _ v0 f0 v f Hfresh).
      split; [intros [[?|[-> ->]]|?]|intros [?|[[= -> ->]|?]]]; auto.
    + destruct Hc as [_ ->].
      split; [intros [?|?]|intros [?|[?|?]]]; auto; discriminate.
    + destruct Hc as [_ ->].
      split; [intros [?|?]|intros [?|[?|?]]]; auto; discriminate.
Qed.

(** Two registrations in a row can be made in the other order. *)
Lemma registrations_swap c1 c2 p p1 p2 :
  is_registration c1 = true → is_registration c2 = true →
  do_call c1 p = Returned p1 → do_call c2 p1 = Returned p2 →
  ∃ p1', do_call c2 p = Returned p1' ∧ do_call c1 p1' = Returned p2.
Proof.
  destruct p as [mo mi w].
  destruct c1 as [v1 f1|v1 f1| |], c2 as [v2 f2|v2 f2| |]; try done;
    intros _ _; simpl;
    unfold RegisterOutboundRuntimeConnWithVersion,
           RegisterInboundRuntimeConnWithVersion; simpl.
  - destruct (mo !! v1) eqn:F1; [done|]. intros [= <-]; simpl.
    destruct (<[v1:=f1]> mo !! v2) eqn:F2; [done|]. intros [= <-].
    apply lookup_insert_None in F2 as [F2 Hne]. rewrite F2.
    eexists; split; [reflexivity|]. simpl.
    rewrite lookup_insert_ne, F1 by done.
    by rewrite (insert_insert_ne _ v1 v2).
  - destruct (mo !! v1) eqn:F1; [done|]. intros [= <-]; simpl.
    destruct (mi !! v2) eqn:F2; [done|]. intros [= <-].
    eexists; split; [reflexivity|]. simpl. by rewrite F1.
  - destruct (mi !! v1) eqn:F1; [done|]. intros [= <-]; simpl.
    destruct (mo !! v2) eqn:F2; [done|]. intros [= <-].
    eexists; split; [reflexivity|]. simpl. by rewrite F1.
  - destruct (mi !! v1) eqn:F1; [done|]. intros [= <-]; simpl.
    destruct (<[v1:=f1]> mi !! v2) eqn:F2; [done|]. intros [= <-].
    apply lookup_insert_None in F2 as [F2 Hne]. rewrite F2.
    eexists; split; [reflexivity|]. simpl.
    rewrite lookup_insert_ne, F1 by done.
    by rewrite (insert_insert_ne _ v1 v2).
Qed.

(** X5.  The order of registrations does not matter: if a run made of
    registrations only returns, then so does the run of the same
    registrations in any other order, and it leaves the same process. *)
Theorem run_registrations_permute cs cs' p p' :
  Forall (λ c, is_registration c = true) cs →
  cs ≡ₚ cs' →
  run cs p = Returned p' →
  run cs' p = Returned p'.
Proof.
  intros Hregs Hperm. revert p.
  induction Hperm as [|c cs cs' Hperm IH|x y cs|cs cs' cs'' H1 IH1 H2 IH2];
    intros p.
  - done.
  - apply Forall_cons in Hregs as [_ Hregs]. cbn [run].
    destruct (do_call c p) as [p1|msg]; [|done]. by apply IH.
  - apply Forall_cons in Hregs as [Hy Hregs].
    apply Forall_cons in Hregs as [Hx _]. cbn [run].
    destruct (do_call y p) as [p1|msg] eqn:Ey; [|done].
    destruct (do_call x p1) as [p2|msg] eqn:Ex; [|done].
    destruct (registrations_swap y x p p1 p2 Hy Hx Ey Ex) as (q & -> & ->).
    done.
  - intros Hrun. apply IH2; [|by apply IH1].
    by rewrite <- H1.
Qed.

End registry_init_facts.

Lemma inbound_registered_then_found_witness :
  mapIBRCV no_versions !! 0 = None
  ∧ ∃ p1,
      RegisterInboundRuntimeConnWithVersion 0 inbound_v0 no_versions = Returned p1
      ∧ mapOBRCV p1 = mapOBRCV no_versions
      ∧ InboundRuntimeConnWithVersion tt 0 tt p1 = ((Some tt, None), p1).
Proof.
  split; [reflexivity|].
  destruct (inbound_registered_then_found 0 inbound_v0 no_versions eq_refl)
    as (p1 & Hreg & Hob & _ & Hfound).
  exists p1. split; [exact Hreg|]. split; [exact Hob|].
  rewrite (Hfound [] p1 tt tt eq_refl). by destruct p1 as [? ? []].
Defined.

Lemma register_outbound_frames_witness :
  RegisterOutboundRuntimeConnWithVersion 1 outbound_v0 v0_registered
  = Returned {| mapOBRCV := <[1 := outbound_v0]> (mapOBRCV v0_registered);
                mapIBRCV := mapIBRCV v0_registered;
                world := tt |}
  ∧ (OutboundRuntimeConnWithVersion tt 0
       {| mapOBRCV := <[1 := outbound_v0]> (mapOBRCV v0_registered);
          mapIBRCV := mapIBRCV v0_registered;
          world := tt |}).1
    = (OutboundRuntimeConnWithVersion tt 0 v0_registered).1.
Proof.
  split; [reflexivity|].
  destruct (register_outbound_frames 1 outbound_v0 v0_registered _ eq_refl)
    as (_ & Hout & _).
  apply (Hout tt 0). lia.
Defined.

Lemma run_registry_exact_witness :
  run two_versions no_versions = Returned v0_v1_registered
  ∧ (mapOBRCV v0_v1_registered !! 1 = Some outbound_v0
     ↔ mapOBRCV no_versions !! 1 = Some outbound_v0
       ∨ CallRegisterOutbound 1 outbound_v0 ∈ two_versions).
Proof.
  split; [reflexivity|].
  apply (proj1 (run_registry_exact two_versions no_versions v0_v1_registered
                  eq_refl) 1 outbound_v0).
Defined.

Lemma run_registrations_permute_witness :
  (Forall (λ c, is_registration c = true) two_versions
   ∧ two_versions ≡ₚ two_versions_shuffled
   ∧ run two_versions no_versions = Returned v0_v1_registered)
  ∧ run two_versions_shuffled no_versions = Returned v0_v1_registered.
Proof.
  assert (Hregs : Forall (λ c, is_registration c = true) two_versions)
    by (repeat constructor).
  assert (Hperm : two_versions ≡ₚ two_versions_shuffled)
    by apply Permutation_cons_append.
  split; [split; [exact Hregs|split; [exact Hperm|reflexivity]]|].
  exact (run_registrations_permute two_versions two_versions_shuffled
           no_versions v0_v1_registered Hregs Hperm eq_refl).
Defined.

(** ** The messages of the registry *)

Lemma list_ascii_of_string_app (s t : string) :
  String.list_ascii_of_string (s +:+ t)
  = (String.list_ascii_of_string s ++ String.list_ascii_of_string t)%list.
Proof. induction s as [|a s IH]; simpl; [done|]. by rewrite IH. Qed.

Lemma string_app_inv_tail (s1 s2 t : string) :
  s1 +:+ t = s2 +:+ t → s1 = s2.
Proof.
  intros H. apply (f_equal String.list_ascii_of_string) in H.
  rewrite !list_ascii_of_string_app in H. apply app_inv_tail in H.
  apply (f_equal String.string_of_list_ascii) in H.
  by rewrite !String.string_of_list_ascii_of_string in H.
Qed.

(** X6.  The unknown-version error and the panic message of a repeated
    registration name the version: two versions with the same message are
    the same version. *)
Theorem version_messages_inj :
  Inj (=) (=) unknown_version ∧ Inj (=) (=) already_registered.
Proof.
  split; intros v v' H.
  - unfold unknown_version, fmt_d in H.
    apply (inj (String.app _)) in H. by apply (inj pretty) in H.
  - unfold already_registered, fmt_d in H.
    apply (inj (String.app _)) in H. apply string_app_inv_tail in H.
    by apply (inj pretty) in H.
Qed.

(** ** The wrapped [connect] import against its declared type *)

Section connect_type_facts.

Context {Caller Store : Type}.
Variable (INVALID_ARGUMENT : Z).

Implicit Types (f : @WASIConnectFunc Caller Store) (caller : Caller)
  (vals : list Val) (s : Store).

(** X7.  The wrapped function comes back without a trap exactly when it
    was called with no argument and the connect function returned no error;
    it then hands the guest the file descriptor that the connect function
    returned, and the store is as the connect function left it. *)
Theorem WrapConnectFunc_no_trap_iff f caller vals s :
  ((WrapConnectFunc INVALID_ARGUMENT f caller vals s).1.2 = None
   ↔ vals = [] ∧ (f caller s).1.2 = None)
  ∧ ((WrapConnectFunc INVALID_ARGUMENT f caller vals s).1.2 = None →
     WrapConnectFunc INVALID_ARGUMENT f caller vals s
     = (([ValI32 (f caller s).1.1], None), (f caller s).2)).
Proof.
  destruct vals as [|val vals].
  - rewrite WrapConnectFunc_no_args.
    destruct (f caller s) as [[fd [e|]] s']; cbn [fst snd];
      split; try done; intuition congruence.
  - rewrite WrapConnectFunc_args by done. cbn [fst snd].
    split; [|done]. split; [done|]. by intros [? _].
Qed.

(** X8.  Whatever the arguments and whatever the connect function does,
    the results of the wrapped function have the result types of
    [WASIConnectFuncType], one [i32]; and arguments that do not have its
    parameter types, none, are turned down with the invalid-argument code
    and the argument-count trap, the store untouched. *)
Theorem WrapConnectFunc_conforms f caller vals s :
  Val_Kind <$> (WrapConnectFunc INVALID_ARGUMENT f caller vals s).1.1
  = Results WASIConnectFuncType
  ∧ (Val_Kind <$> vals ≠ Params WASIConnectFuncType →
     WrapConnectFunc INVALID_ARGUMENT f caller vals s
     = (([ValI32 INVALID_ARGUMENT],
         Some (NewTrap (expects_0_argument (length vals)))), s)).
Proof.
  destruct vals as [|val vals].
  - rewrite WrapConnectFunc_no_args.
    by destruct (f caller s) as [[fd [e|]] s'].
  - by rewrite WrapConnectFunc_args.
Qed.

End connect_type_facts.

Lemma WrapConnectFunc_conforms_witness :
  Val_Kind <$> [ValI64 7] ≠ Params WASIConnectFuncType
  ∧ WrapConnectFunc (-2) connecting tt [ValI64 7] tt
    = (([ValI32 (-2)],
        Some (NewTrap "v0.WASIConnectFunc expects 0 argument, got 1")), tt).
Proof.
  split; [discriminate|].
  apply (proj2 (WrapConnectFunc_conforms (-2) connecting tt [ValI64 7] tt)).
  discriminate.
Defined.

(** ** Invocations in a row *)

Lemma WrapConnectFunc_counting {Caller Store : Type} (INVALID_ARGUMENT : Z)
    (f : @WASIConnectFunc Caller Store) (caller : Caller)
    (vals : list Val) (s : Store) (n : nat) :
  ∃ r s',
    WrapConnectFunc INVALID_ARGUMENT (counting f) caller vals (s, n)
    = (r, (s', (n + if decide (vals = []) then 1 else 0)%nat)).
Proof.
  destruct vals as [|val vals].
  - rewrite WrapConnectFunc_no_args. unfold counting; cbn [fst snd].
    destruct (f caller s) as [[fd [e|]] s1]; cbn [fst snd];
      rewrite decide_True by done; replace (n + 1)%nat with (S n) by lia;
      eauto.
  - rewrite WrapConnectFunc_args, decide_False by done.
    replace (n + 0)%nat with n by lia. eauto.
Qed.

(** X9.  Over any number of invocations in a row, the connect function is
    entered once for each invocation that carries no argument and not at
    all for the others: a counting connect function ends at its starting
    count plus the number of invocations without arguments, and every
    invocation gets exactly one answer. *)
Theorem invoke_all_enters_once {Caller Store : Type} (INVALID_ARGUMENT : Z)
    (f : @WASIConnectFunc Caller Store) (caller : Caller)
    (argss : list (list Val)) (s : Store) (n : nat) :
  (invoke_all (WrapConnectFunc INVALID_ARGUMENT (counting f)) caller argss
     (s, n)).2.2
  = (n + length (filter (λ vals, vals = []) argss))%nat
  ∧ length (invoke_all (WrapConnectFunc INVALID_ARGUMENT (counting f)) caller
              argss (s, n)).1
    = length argss.
Proof.
  revert s n. induction argss as [|vals argss IH]; intros s n.
  - simpl. split; [lia|done].
  - cbn [invoke_all].
    destruct (WrapConnectFunc_counting INVALID_ARGUMENT f caller vals s n)
      as (r & s1 & ->).
    specialize (IH s1 (n + if decide (vals = []) then 1 else 0)%nat).
    destruct (invoke_all _ caller argss _) as [rs s2].
    cbn [fst snd length] in *. destruct IH as [-> ->].
    rewrite filter_cons. destruct (decide (vals = [])); cbn [length]; lia.
Qed.

(** ** Several dialers *)

Lemma Dial_recording {netConn Net : Type} (f : @DialerFunc netConn Net)
    (net addr : string) (n : Net) (log : list (string * string)) :
  ∃ r n',
    Dial (NewManagedDialer net addr (recording f)) (n, log)
    = (r, (n', (log ++ [(net, addr)])%list)).
Proof.
  unfold Dial, recording; simpl. destruct (f net addr n) as [r n']. eauto.
Qed.

(** X10.  Dialers do not interfere: when dialers built for a list of
    destinations over one recording dial function are dialed one after
    another, the dial function is called once per dialer, each time with the
    destination that dialer was built for, in order; whatever a dial does to
    the network, and whether it fails, has no bearing on where the next one
    goes. *)
Theorem dial_each_recorded {netConn Net : Type} (f : @DialerFunc netConn Net)
    (dests : list (string * string)) (n : Net) (log : list (string * string)) :
  (dial_each ((λ d, NewManagedDialer d.1 d.2 (recording f)) <$> dests)
     (n, log)).2.2
  = (log ++ dests)%list
  ∧ length (dial_each ((λ d, NewManagedDialer d.1 d.2 (recording f)) <$> dests)
              (n, log)).1
    = length dests.
Proof.
  revert n log. induction dests as [|[net addr] dests IH]; intros n log.
  - simpl. by rewrite app_nil_r.
  - cbn [fmap list_fmap dial_each fst snd].
    destruct (Dial_recording f net addr n log) as (r & n1 & ->).
    specialize (IH n1 (log ++ [(net, addr)])%list).
    destruct (dial_each _ (n1, _)) as [rs n2].
    simpl in *. destruct IH as [IHlog IHlen]. split.
    + by rewrite IHlog, <- app_assoc.
    + by rewrite IHlen.
Qed.

Lemma WrapConnectFunc_no_trap_iff_witness :
  (WrapConnectFunc (-2) connecting tt [] tt).1.2 = None
  ∧ WrapConnectFunc (-2) connecting tt [] tt = (([ValI32 3], None), tt).
Proof.
  split; [reflexivity|].
  apply (proj2 (WrapConnectFunc_no_trap_iff (-2) connecting tt [] tt)).
  reflexivity.
Defined.
